(** * kv: a directory-backed key-value store and an LRU cache in front of it

    Shallow embedding of the Go package [kv] (store, LRU cache, byte items)
    and the properties of its specification.

    Conventions of the embedding.
    - A Go [string] and a [[]byte] are sequences of bytes: keys and paths are
      [string], file contents and item values are [list Byte.byte].
    - A nil [Item] is [None]; a store is a state type with the four
      operations of the [Store] interface, and a nil backend is [None].
    - The writing goroutine started by [dirStore.Set] and the goroutine of
      [lru.Flush] are run to completion at the point where they are started:
      a [signal] is what a receiver eventually observes on the returned
      channel.  This is the schedule of a caller that waits for every
      completion signal before its next call.
    - An operation that never returns because it waits on a channel nobody
      serves is [Blocks]; a nil dereference is [Panics]. *)

From Stdlib Require Import Strings.String Strings.Ascii Strings.Byte.
From Stdlib Require Import ZArith Lia.
From stdpp Require Import base list sorting strings gmap fin_maps.

Local Open Scope string_scope.
Local Open Scope list_scope.

(** ** Library functions of Go used by the package *)

Module strings.

(** [strings.Split(s, "/")]: the pieces of [s] between the slashes; always
    at least one piece. *)
Fixpoint Split (s : string) : list string :=
  match s with
  | EmptyString => [EmptyString]
  | String c r =>
      if Ascii.eqb c "/" then EmptyString :: Split r
      else match Split r with
           | h :: t => String c h :: t
           | [] => [String c EmptyString]
           end
  end.

(** [strings.Join(elems, "/")]. *)
Fixpoint Join (elems : list string) : string :=
  match elems with
  | [] => ""
  | [e] => e
  | e :: rest => e +:+ "/" +:+ Join rest
  end.

(** [strings.HasPrefix(s, prefix)]. *)
Definition HasPrefix (s pre : string) : bool := String.prefix pre s.

(** [strings.TrimPrefix(s, prefix)]: [s] without the leading [prefix], or
    [s] itself when it does not start with it. *)
Definition TrimPrefix (s pre : string) : string :=
  if HasPrefix s pre
  then String.substring (String.length pre) (String.length s - String.length pre) s
  else s.

End strings.

Module url.

Definition unreserved (c : ascii) : bool :=
  let n := nat_of_ascii c in
  ((97 <=? n)%nat && (n <=? 122)%nat) || ((65 <=? n)%nat && (n <=? 90)%nat)
  || ((48 <=? n)%nat && (n <=? 57)%nat)
  || Ascii.eqb c "-" || Ascii.eqb c "_" || Ascii.eqb c "." || Ascii.eqb c "~".

Definition hexdigit (n : nat) : ascii :=
  if (n <? 10)%nat then ascii_of_nat (48 + n) else ascii_of_nat (55 + n).

(** [url.QueryEscape]: unreserved bytes stay, a space becomes [+], every
    other byte becomes [%XX] with upper-case hexadecimal digits. *)
Fixpoint QueryEscape (s : string) : string :=
  match s with
  | EmptyString => EmptyString
  | String c r =>
      if unreserved c then String c (QueryEscape r)
      else if Ascii.eqb c " " then String "+" (QueryEscape r)
      else let n := nat_of_ascii c in
           String "%" (String (hexdigit (n / 16)) (String (hexdigit (n mod 16)) (QueryEscape r)))
  end.

Definition unhex (c : ascii) : option nat :=
  let n := nat_of_ascii c in
  if (48 <=? n)%nat && (n <=? 57)%nat then Some (n - 48)
  else if (97 <=? n)%nat && (n <=? 102)%nat then Some (n - 97 + 10)
  else if (65 <=? n)%nat && (n <=? 70)%nat then Some (n - 65 + 10)
  else None.

(** [url.QueryUnescape]: [%XX] becomes the byte, [+] a space; a [%] that is
    not followed by two hexadecimal digits is an error ([None]). *)
Fixpoint QueryUnescape (s : string) : option string :=
  match s with
  | EmptyString => Some EmptyString
  | String c r =>
      if Ascii.eqb c "%" then
        match r with
        | String h (String l r') =>
            match unhex h, unhex l, QueryUnescape r' with
            | Some a, Some b, Some t => Some (String (ascii_of_nat (16 * a + b)) t)
            | _, _, _ => None
            end
        | _ => None
        end
      else if Ascii.eqb c "+" then String " " <$> QueryUnescape r
      else String c <$> QueryUnescape r
  end.

End url.

Module filepath.

(** One step of [Clean] on the stack of kept elements (innermost first). *)
Definition clean_step (rooted : bool) (stack : list string) (e : string) : list string :=
  if String.eqb e "" || String.eqb e "." then stack
  else if String.eqb e ".." then
    match stack with
    | top :: below => if String.eqb top ".." then e :: stack else below
    | [] => if rooted then [] else [e]
    end
  else e :: stack.

(** [filepath.Clean] on a Unix path: repeated separators collapse, [.] is
    dropped, [..] cancels the element before it (and disappears at the
    root); the empty result is [.]. *)
Definition Clean (p : string) : string :=
  let rooted := strings.HasPrefix p "/" in
  let kept := rev (fold_left (clean_step rooted) (strings.Split p) []) in
  match rooted, kept with
  | true, _ => "/" +:+ strings.Join kept
  | false, [] => "."
  | false, _ => strings.Join kept
  end.

(** [filepath.Join]: leading empty elements are skipped, the others are
    joined with slashes and cleaned; no non-empty element gives [""]. *)
Fixpoint Join (elem : list string) : string :=
  match elem with
  | [] => ""
  | e :: rest => if String.eqb e "" then Join rest else Clean (strings.Join elem)
  end.

(** Index just after the last separator of [p]. *)
Fixpoint after_last_slash (p : string) : nat :=
  match p with
  | EmptyString => 0
  | String c r =>
      let k := after_last_slash r in
      if Nat.eqb k 0 then (if Ascii.eqb c "/" then 1 else 0) else S k
  end.

(** [filepath.Split]: the directory part (with its final separator) and
    the file part. *)
Definition Split (p : string) : string * string :=
  let i := after_last_slash p in
  (String.substring 0 i p, String.substring i (String.length p - i) p).

(** [filepath.Dir]: the cleaned directory part. *)
Definition Dir (p : string) : string := Clean (fst (Split p)).

(** [filepath.Base] of a cleaned path: its last element. *)
Definition Base (p : string) : string := snd (Split p).

End filepath.

(** ** The file system seen by a store

    A flat name space from cleaned path names to nodes.  The working
    directory [.] and the root [/] always exist; permissions, links and
    other processes are not modelled (the store creates its files with mode
    0600 and its directories with mode 0700 and reads them back itself). *)

Module os.

Inductive node :=
| File (data : list byte)
| Directory.

Inductive error := ENOENT | EISDIR | ENOTDIR | ENOTEMPTY | EEXIST | EINVAL.

Inductive res (A : Type) :=
| Ok (a : A)
| Err (e : error).
Arguments Ok {A} a.
Arguments Err {A} e.

Abbreviation FS := (gmap string node).

Definition always_dir (p : string) : bool := String.eqb p "." || String.eqb p "/".

(** [os.Stat]. *)
Definition Stat (fs : FS) (p : string) : option node :=
  if always_dir p then Some Directory else fs !! p.

(** The entries of directory [dir]: the paths whose directory part is [dir]. *)
Definition children (fs : FS) (dir : string) : list string :=
  filter (fun p => bool_decide (filepath.Dir p = dir ∧ p ≠ dir ∧ p ≠ ""))
         (fst <$> map_to_list fs).

(** [os.Open] followed by reading: the node at [p]. *)
Definition Open (fs : FS) (p : string) : res node :=
  match Stat fs p with
  | Some n => Ok n
  | None => Err ENOENT
  end.

(** [ioutil.ReadAll] on an open node: reading a directory fails. *)
Definition ReadAll (f : node) : res (list byte) :=
  match f with
  | File data => Ok data
  | Directory => Err EISDIR
  end.

(** [os.Remove]: unlinks a file, or removes an empty directory. *)
Definition Remove (fs : FS) (p : string) : res FS :=
  if always_dir p then Err EINVAL
  else match fs !! p with
       | None => Err ENOENT
       | Some (File _) => Ok (delete p fs)
       | Some Directory =>
           match children fs p with
           | [] => Ok (delete p fs)
           | _ :: _ => Err ENOTEMPTY
           end
       end.

(** What creating an entry at [p] requires of its parent directory. *)
Definition parent_check (fs : FS) (p : string) : option error :=
  if String.eqb p "" then Some ENOENT
  else match Stat fs (filepath.Dir p) with
       | Some Directory => None
       | Some (File _) => Some ENOTDIR
       | None => Some ENOENT
       end.

(** [os.Mkdir]. *)
Definition Mkdir (fs : FS) (p : string) : FS * option error :=
  match Stat fs p with
  | Some _ => (fs, Some EEXIST)
  | None =>
      match parent_check fs p with
      | Some e => (fs, Some e)
      | None => (<[p := Directory]> fs, None)
      end
  end.

(** [os.MkdirAll]: nothing to do for a directory, an error for a file;
    otherwise the parent [path[0:j-1]] is made first, then [path] itself.
    The recursion is on the length of the path. *)
Fixpoint MkdirAll_rec (n : nat) (fs : FS) (p : string) : FS * option error :=
  match Stat fs p with
  | Some Directory => (fs, None)
  | Some (File _) => (fs, Some ENOTDIR)
  | None =>
      match n with
      | O => Mkdir fs p
      | S n' =>
          let j := filepath.after_last_slash p in
          if (1 <? j)%nat then
            match MkdirAll_rec n' fs (String.substring 0 (j - 1) p) with
            | (fs', Some e) => (fs', Some e)
            | (fs', None) => Mkdir fs' p
            end
          else Mkdir fs p
      end
  end.

Definition MkdirAll (fs : FS) (p : string) : FS * option error :=
  MkdirAll_rec (String.length p) fs p.

(** [os.OpenFile(p, O_WRONLY|O_CREATE, 0600)]: an existing file is opened as
    it is (its contents are kept), a missing one is created empty. *)
Definition OpenFile_WRONLY_CREATE (fs : FS) (p : string) : res FS :=
  match Stat fs p with
  | Some (File _) => Ok fs
  | Some Directory => Err EISDIR
  | None =>
      match parent_check fs p with
      | Some e => Err e
      | None => Ok (<[p := File []]> fs)
      end
  end.

(** Writing [data] at offset 0 of the file just opened at [p]: the bytes
    beyond [length data] stay. *)
Definition overwrite (data old : list byte) : list byte :=
  data ++ drop (length data) old.

Definition Write (fs : FS) (p : string) (data : list byte) : FS :=
  match fs !! p with
  | Some (File old) => <[p := File (overwrite data old)]> fs
  | _ => fs
  end.

End os.

(** *** [filepath.Match] and [filepath.Glob]

    Patterns made of literal bytes, [?] and [*].  A pattern with a
    character class or a backslash, and a [Glob] whose directory part has a
    metacharacter, are outside this model and match nothing; [List] builds
    its pattern from escaped key segments, which contain none. *)

Definition is_sep (c : ascii) : bool := Ascii.eqb c "/".

Fixpoint Match (pat name : string) : bool :=
  match pat with
  | EmptyString => String.eqb name ""
  | String c pat' =>
      if Ascii.eqb c "*" then
        (fix star (n : string) : bool :=
           Match pat' n
           || match n with
              | EmptyString => false
              | String d n' => negb (is_sep d) && star n'
              end) name
      else if Ascii.eqb c "[" || Ascii.eqb c "\" then false
      else match name with
           | EmptyString => false
           | String d n' =>
               (if Ascii.eqb c "?" then negb (is_sep d) else Ascii.eqb c d) && Match pat' n'
           end
  end.

Fixpoint hasMeta (p : string) : bool :=
  match p with
  | EmptyString => false
  | String c r =>
      Ascii.eqb c "*" || Ascii.eqb c "?" || Ascii.eqb c "[" || Ascii.eqb c "\" || hasMeta r
  end.

Definition str_le (a b : string) : Prop := String.leb a b = true.

#[global] Instance str_le_dec : RelDecision str_le :=
  fun a b => decide (String.leb a b = true).

(** [glob(dir, pattern)]: the sorted names of [dir] that match, joined to [dir]. *)
Definition glob (fs : os.FS) (dir pat : string) : list string :=
  match os.Stat fs dir with
  | Some os.Directory =>
      let names := merge_sort str_le (filepath.Base <$> os.children fs dir) in
      (fun n => filepath.Join [dir; n]) <$> filter (fun n => Match pat n = true) names
  | _ => []
  end.

Definition Glob (fs : os.FS) (pattern : string) : list string :=
  if negb (hasMeta pattern) then
    match os.Stat fs pattern with Some _ => [pattern] | None => [] end
  else
    let (dir, file) := filepath.Split pattern in
    let dir := if String.eqb dir "" then "."
               else if String.eqb dir "/" then dir
               else String.substring 0 (String.length dir - 1) dir in
    if hasMeta dir then [] else glob fs dir file.

(** ** Items

    [ByteItem] copies its value as it is.  The JSON and gob items delegate
    to encoders that are not part of the package and are not modelled. *)

Record ByteItem := { Value : list byte }.

Definition Item := ByteItem.

(** [ByteItem.WriteTo]: the bytes handed to the writer in one call. *)
Definition WriteTo (b : Item) : list byte := Value b.

(** [ByteItem.ReadFrom]: the value is replaced only when reading succeeds. *)
Definition ReadFrom (b : Item) (r : os.node) : os.res Item :=
  match os.ReadAll r with
  | os.Ok data => os.Ok {| Value := data |}
  | os.Err e => os.Err e
  end.

(** ** The Store interface *)

(** What a receiver observes on a [<-chan error]: a channel that is closed,
    after at most one error was sent on it, or a channel that nobody ever
    sends on or closes. *)
Inductive signal :=
| Closed (err : option os.error)
| NeverClosed.

(** Outcome of a call on a store in state [S]: it returns in a new state,
    or panics, or never returns (and keeps the state's lock for ever). *)
Inductive result (S A : Type) :=
| Done (s : S) (a : A)
| Panics
| Blocks (s : S).
Arguments Done {S A} s a.
Arguments Panics {S A}.
Arguments Blocks {S A} s.

Class Store (S : Type) := {
  Get : S -> string -> Item -> result S (option Item);
  Set_ : S -> string -> option Item -> result S signal;
  List : S -> string -> list string;
  Flush : S -> result S signal
}.

(** [mkpath]: every segment of the key is escaped on its own. *)
Definition mkpath (root s : string) : string :=
  let parts := url.QueryEscape <$> strings.Split s in
  filepath.Join [root; filepath.Join parts].

(** ** The directory store *)

Module dirStore.

(** The store's root and the file system it works on. *)
Record dirStore := { path : string; fs : os.FS }.

Definition NewStore (path : string) (fs : os.FS) : dirStore :=
  {| path := path; fs := fs |}.

Definition with_fs (store : dirStore) (fs' : os.FS) : dirStore :=
  {| path := path store; fs := fs' |}.

Definition Get (store : dirStore) (key : string) (item : Item) : option Item :=
  match os.Open (fs store) (mkpath (path store) key) with
  | os.Ok f =>
      match ReadFrom item f with
      | os.Ok item' => Some item'
      | os.Err _ => None
      end
  | os.Err _ => None
  end.

(** [Set] with its writing task: the new file system and what the returned
    channel delivers. *)
Definition Set_ (store : dirStore) (key : string) (item : option Item)
  : dirStore * signal :=
  let s := mkpath (path store) key in
  match item with
  | None =>
      match os.Remove (fs store) s with
      | os.Err err => (store, Closed (Some err))
      | os.Ok fs' => (with_fs store fs', Closed None)
      end
  | Some item =>
      let fs1 := fst (os.MkdirAll (fs store) (filepath.Dir s)) in
      match os.OpenFile_WRONLY_CREATE fs1 s with
      | os.Err err => (with_fs store fs1, Closed (Some err))
      | os.Ok fs2 => (with_fs store (os.Write fs2 s (WriteTo item)), Closed None)
      end
  end.

(** [Flush] waits for the writing tasks and syncs: no error is ever sent. *)
Definition Flush (store : dirStore) : dirStore * signal := (store, Closed None).

Definition List (store : dirStore) (prefix : string) : list string :=
  let prefix := if String.eqb prefix "" then "/" else prefix in
  let glob := mkpath (path store) (prefix +:+ "x") in
  let glob := String.substring 0 (String.length glob - 1) glob in
  fold_left
    (fun files file =>
       match os.Stat (fs store) file with
       | Some (os.File _) =>
           match url.QueryUnescape file with
           | Some s => files ++ [strings.TrimPrefix s (path store +:+ "/")]
           | None => files
           end
       | _ => files
       end)
    (Glob (fs store) (glob +:+ "*")) [].

End dirStore.

#[global] Instance dirStore_Store : Store dirStore.dirStore := {|
  Get store key item := Done store (dirStore.Get store key item);
  Set_ store key item := let (store', c) := dirStore.Set_ store key item in Done store' c;
  List := dirStore.List;
  Flush store := let (store', c) := dirStore.Flush store in Done store' c
|}.

(** ** [container/list]

    A list element is a heap cell: [addr] is its address, [Value] what it
    holds.  The front of the list comes first. *)

Module clist.
Section clist.
Context {A : Type}.

Record Element := { addr : nat; Value : A }.

Definition is_at (a : nat) (e : Element) : bool := Nat.eqb (addr e) a.

(** [l.Back()]: the last element, or nil. *)
Definition Back (l : list Element) : option Element := last l.

(** [l.PushFront(v)]: a new cell at the next free address. *)
Definition PushFront (l : list Element) (free : nat) (v : A) : list Element * Element :=
  let e := {| addr := free; Value := v |} in (e :: l, e).

(** The cell at address [a], when it is linked in [l]. *)
Definition deref (l : list Element) (a : nat) : option Element :=
  List.find (is_at a) l.

(** [l.MoveToFront(e)]: nothing happens when [e] is not an element of [l]. *)
Definition MoveToFront (l : list Element) (a : nat) : list Element :=
  match deref l a with
  | Some e => e :: List.filter (fun e' => negb (is_at a e')) l
  | None => l
  end.

(** [e.Value = v]. *)
Definition SetValue (l : list Element) (a : nat) (v : A) : list Element :=
  (fun e => if is_at a e then {| addr := a; Value := v |} else e) <$> l.

End clist.
Arguments Element : clear implicits.
End clist.

(** ** The LRU cache *)

Module lru.

Record lruItem := { K : string; V : option Item }.

Section lru.
Context {B : Type} `{!Store B}.

(** [l] and [m] as in the source; [free] is the next unused cell address;
    the backend is the state of the wrapped store, [None] for a nil
    backend.  The mutex is left out: calls are not interleaved here. *)
Record lru := {
  l : list (clist.Element lruItem);
  m : gmap string nat;
  size : Z;
  backend : option B;
  free : nat
}.

Definition NewLRU (size : Z) (backend : option B) : lru :=
  {| l := []; m := ∅; size := size; backend := backend; free := 0 |}.

Definition len (m : gmap string nat) : Z := Z.of_nat (base.size m).

Definition with_l (store : lru) (l' : list (clist.Element lruItem)) : lru :=
  {| l := l'; m := m store; size := size store; backend := backend store;
     free := free store |}.

Definition with_backend (store : lru) (b : option B) : lru :=
  {| l := l store; m := m store; size := size store; backend := b;
     free := free store |}.

(** The loop of [Flush]: every cached pair is set on the backend. *)
Fixpoint write_all (ls : list (clist.Element lruItem)) (b : B) (vs : list nat)
  : result B unit :=
  match vs with
  | [] => Done b tt
  | v :: vs' =>
      match clist.deref ls v with
      | None => Panics
      | Some e =>
          let pair := clist.Value e in
          match Set_ b (K pair) (V pair) with
          | Done b' _ => write_all ls b' vs'
          | Panics => Panics
          | Blocks b' => Blocks b'
          end
      end
  end.

(** [put]: the channel it returns is nil ([None]) unless an evicted entry
    was handed to the backend. *)
Definition put (store : lru) (key : string) (item : option Item)
  : result lru (option signal) :=
  if (len (m store) <? size store)%Z then
    let (l', el) := clist.PushFront (l store) (free store) {| K := key; V := item |} in
    Done {| l := l'; m := <[key := clist.addr el]> (m store); size := size store;
            backend := backend store; free := S (free store) |} None
  else
    match clist.Back (l store) with
    | None => Panics
    | Some el =>
        let value := clist.Value el in
        let evicted (b : option B) (c : option signal) :=
          let m1 := delete (K value) (m store) in
          let l1 := clist.SetValue (l store) (clist.addr el) {| K := key; V := item |} in
          let l2 := clist.MoveToFront l1 (clist.addr el) in
          Done {| l := l2; m := <[key := clist.addr el]> m1; size := size store;
                  backend := b; free := free store |} c in
        match backend store with
        | Some b =>
            match Set_ b (K value) (V value) with
            | Done b' c => evicted (Some b') (Some c)
            | Panics => Panics
            | Blocks b' => Blocks (with_backend store (Some b'))
            end
        | None => evicted None None
        end
    end.

(** [Get].  [<-store.put(key, item)] receives from what [put] returned: a
    nil channel, or one that is never closed, blocks for ever. *)
Definition Get (store : lru) (key : string) (item : Item) : result lru (option Item) :=
  match m store !! key with
  | Some el =>
      match clist.deref (l store) el with
      | Some e => Done (with_l store (clist.MoveToFront (l store) el)) (V (clist.Value e))
      | None => Panics
      end
  | None =>
      match backend store with
      | Some b =>
          match Get b key item with
          | Done b' (Some item) =>
              match put (with_backend store (Some b')) key (Some item) with
              | Done store' (Some (Closed _)) => Done store' (Some item)
              | Done store' (Some NeverClosed) => Blocks store'
              | Done store' None => Blocks store'
              | Panics => Panics
              | Blocks store' => Blocks store'
              end
          | Done b' None => Done (with_backend store (Some b')) None
          | Panics => Panics
          | Blocks b' => Blocks (with_backend store (Some b'))
          end
      | None => Done store None
      end
  end.

Definition Set_ (store : lru) (key : string) (item : option Item) : result lru signal :=
  let c := Closed None in
  match m store !! key with
  | Some el =>
      let l1 := clist.SetValue (l store) el {| K := key; V := item |} in
      Done (with_l store (clist.MoveToFront l1 el)) c
  | None =>
      match item with
      | Some _ =>
          match put store key item with
          | Done store' (Some c') => Done store' c'
          | Done store' None => Done store' c
          | Panics => Panics
          | Blocks store' => Blocks store'
          end
      | None => Done store c
      end
  end.

(** [List]: the keys come in the iteration order of the map, which Go leaves
    unspecified; here it is the order of [map_to_list]. *)
Definition List (store : lru) (prefix : string) : list string :=
  filter (fun k => strings.HasPrefix k prefix = true) (fst <$> map_to_list (m store)).

(** [Flush].  Without a backend the fresh channel is returned as it is.
    With one, the task holds the lock while it writes every pair, receives
    from the backend's flush, forwards an error it received, and closes the
    channel; when the backend's channel is never closed the task keeps the
    lock for ever, which is [Blocks]. *)
Definition Flush (store : lru) : result lru signal :=
  match backend store with
  | Some b =>
      match write_all (l store) b (snd <$> map_to_list (m store)) with
      | Done b1 _ =>
          match Flush b1 with
          | Done b2 (Closed err) => Done (with_backend store (Some b2)) (Closed err)
          | Done b2 NeverClosed => Blocks (with_backend store (Some b2))
          | Panics => Panics
          | Blocks b2 => Blocks (with_backend store (Some b2))
          end
      | Panics => Panics
      | Blocks b1 => Blocks (with_backend store (Some b1))
      end
  | None => Done store NeverClosed
  end.

End lru.
Arguments lru : clear implicits.
End lru.

#[global] Instance lru_Store {B : Type} `{!Store B} : Store (lru.lru B) := {|
  Get := lru.Get;
  Set_ := lru.Set_;
  List := lru.List;
  Flush := lru.Flush
|}.

(** ** Sequences of calls on a cache *)

Section Runs.
Context {B : Type} `{!Store B}.

Inductive op :=
| OpGet (key : string) (item : Item)
| OpSet (key : string) (item : option Item)
| OpList (prefix : string)
| OpFlush.

Definition forget {S A : Type} (r : result S A) : result S unit :=
  match r with
  | Done s _ => Done s tt
  | Panics => Panics
  | Blocks s => Blocks s
  end.

(** One call, keeping only its effect on the cache. *)
Definition step (s : lru.lru B) (o : op) : result (lru.lru B) unit :=
  match o with
  | OpGet key item => forget (lru.Get s key item)
  | OpSet key item => forget (lru.Set_ s key item)
  | OpList prefix => Done s tt
  | OpFlush => forget (lru.Flush s)
  end.

(** The states a cache goes through under a sequence of calls, the first
    state first.  The sequence stops at a panic; a call that blocks leaves
    one last state, in which the lock is held for ever. *)
Fixpoint run (s : lru.lru B) (ops : list op) : list (lru.lru B) :=
  s :: match ops with
       | [] => []
       | o :: ops' =>
           match step s o with
           | Done s' _ => run s' ops'
           | Blocks s' => [s']
           | Panics => []
           end
       end.

(** The cell at address [a] that holds the pair of [k] and [v]. *)
Definition cell (a : nat) (k : string) (v : option Item) : clist.Element lru.lruItem :=
  {| clist.addr := a; clist.Value := {| lru.K := k; lru.V := v |} |}.

(** The index of a cache is consistent: cells have distinct addresses below
    the next free one, and the map sends exactly the keys of the linked
    cells to their addresses. *)
Definition linked (s : lru.lru B) : Prop :=
  NoDup (clist.addr <$> lru.l s)
  ∧ (∀ k a, lru.m s !! k = Some a ↔ ∃ v, cell a k v ∈ lru.l s)
  ∧ Forall (fun e => clist.addr e < lru.free s) (lru.l s).

End Runs.

(** [after P r]: the state in which the call leaves the store satisfies [P]. *)
Definition after {S A : Type} (P : S -> Prop) (r : result S A) : Prop :=
  match r with
  | Done s _ => P s
  | Blocks s => P s
  | Panics => True
  end.

(** What every call keeps: the index stays consistent, the capacity is the
    configured one, and a map within the capacity stays within it. *)
Definition keeps {B : Type} (s s' : lru.lru B) : Prop :=
  linked s' ∧ lru.size s' = lru.size s
  ∧ ((lru.len (lru.m s) <= lru.size s)%Z -> (lru.len (lru.m s') <= lru.size s')%Z).

(** ** Stores and values of the examples *)

Definition bytes (s : string) : list byte := list_byte_of_string s.

Definition item (s : string) : Item := {| Value := bytes s |}.

Definition template : Item := {| Value := [] |}.

(** A directory store on a file system that holds nothing yet. *)
Definition test_dir : dirStore.dirStore := dirStore.NewStore "store-test" ∅.

Definition no_backend : option dirStore.dirStore := None.

Definition three_sets : list op :=
  [OpSet "foo" (Some (item "Hello")); OpSet "bar" (Some (item "World"));
   OpSet "baz" (Some (item "!"))].

(** The state in which a call leaves the store ([d] after a panic). *)
Definition state_of {S A : Type} (d : S) (r : result S A) : S :=
  match r with
  | Done s _ => s
  | Blocks s => s
  | Panics => d
  end.

(** A directory store that holds key [k]. *)
Definition dir_with (k v : string) : dirStore.dirStore :=
  fst (dirStore.Set_ test_dir k (Some (item v))).

(** A cache of capacity 2 over the directory store, after the three sets. *)
Definition backed_cache : lru.lru dirStore.dirStore :=
  default (lru.NewLRU 2 (Some test_dir))
          (last (run (lru.NewLRU 2 (Some test_dir)) three_sets)).

(** A cache of capacity 1 that holds the key [""], over a directory store
    whose root directory exists: writing [""] back hits the directory. *)
Definition root_cache : lru.lru dirStore.dirStore :=
  state_of (lru.NewLRU 1 (Some (dir_with "foo" "Hello")))
           (lru.Set_ (lru.NewLRU 1 (Some (dir_with "foo" "Hello"))) "" (Some (item "x"))).

Definition flushed_cache : lru.lru dirStore.dirStore :=
  state_of backed_cache (lru.Flush backed_cache).

Definition evicting_cache : lru.lru dirStore.dirStore :=
  state_of root_cache (lru.Set_ root_cache "bar" (Some (item "y"))).

(** The directory store after [Set] of "foo", "bar" and "baz". *)
Definition three_files : dirStore.dirStore :=
  fst (dirStore.Set_
         (fst (dirStore.Set_ (dir_with "foo" "Hello") "bar" (Some (item "World"))))
         "baz" (Some (item "!"))).

(** ** The cache as a recency-ordered association list *)

(** The pairs of the list, the most recently used first. *)
Definition entries {B : Type} (s : lru.lru B) : list (string * option Item) :=
  (fun e => (lru.K (clist.Value e), lru.V (clist.Value e))) <$> lru.l s.

(** The pairs of the other keys, in their order. *)
Definition without (k : string) (kvs : list (string * option Item))
  : list (string * option Item) :=
  List.filter (fun kv => negb (String.eqb (fst kv) k)) kvs.

(** The item of the first pair of key [k]. *)
Definition assoc (k : string) (kvs : list (string * option Item)) : option (option Item) :=
  snd <$> List.find (fun kv => String.eqb (fst kv) k) kvs.

(** ** [load] of the benchmarks: one [Set] of the same bytes per key, the
    returned channels dropped. *)
Fixpoint load {S : Type} `{!Store S} (store : S) (keys : list string) (val : list byte)
  : result S unit :=
  match keys with
  | [] => Done store tt
  | key :: keys' =>
      match Set_ store key (Some {| Value := val |}) with
      | Done store' _ => load store' keys' val
      | Panics => Panics
      | Blocks store' => Blocks store'
      end
  end.

(** A cache of capacity 2 whose backend holds the key "k". *)
Definition cold_cache : lru.lru dirStore.dirStore :=
  lru.NewLRU 2 (Some (dir_with "k" "v")).

(** A cache of capacity 2 over a cache of capacity 4 that has no backend. *)
Definition nested_cache : lru.lru (lru.lru dirStore.dirStore) :=
  state_of (lru.NewLRU 2 (Some (lru.NewLRU 4 no_backend)))
           (lru.Set_ (lru.NewLRU 2 (Some (lru.NewLRU 4 no_backend)))
                     "foo" (Some (item "Hello"))).

(** The nodes [a] and [b] read the same: the same file contents, or no
    file on either side (a directory reads like a missing file). *)
Definition same_file (a b : option os.node) : Prop :=
  match a, b with
  | Some (os.File x), Some (os.File y) => x = y
  | Some (os.File _), _ => False
  | _, Some (os.File _) => False
  | _, _ => True
  end.

(** The pair held by a cell. *)
Definition pair_of (e : clist.Element lru.lruItem) : string * option Item :=
  (lru.K (clist.Value e), lru.V (clist.Value e)).

(** A call never turns a nil backend into a store or a store into nil. *)
Definition same_kind {B : Type} (s s' : lru.lru B) : Prop :=
  is_Some (lru.backend s') ↔ is_Some (lru.backend s).

(** The pairs that [load] sets. *)
Definition loaded (val : list byte) (keys : list string) : list (string * option Item) :=
  (fun k => (k, Some {| Value := val |})) <$> keys.

(** No byte of [s] is a path separator or a metacharacter of [Glob]. *)
Fixpoint all_plain (s : string) : bool :=
  match s with
  | EmptyString => true
  | String c r =>
      negb (is_sep c) && negb (hasMeta (String c EmptyString)) && all_plain r
  end.

(** The cache of capacity 2 without backend after the three sets. *)
Definition plain_cache : lru.lru dirStore.dirStore :=
  default (lru.NewLRU 2 no_backend) (last (run (lru.NewLRU 2 no_backend) three_sets)).

(** [backed_cache] after a set of "foo", which evicts "bar". *)
Definition refilled_cache : lru.lru dirStore.dirStore :=
  state_of backed_cache (lru.Set_ backed_cache "foo" (Some (item "Hello"))).

(** [backed_cache] after a get of "foo", which the backend serves. *)
Definition promoted_cache : lru.lru dirStore.dirStore :=
  state_of backed_cache (lru.Get backed_cache "foo" template).

(** * Properties *)

(** ** Cells of a [container/list] *)

Section clist_facts.
Context {A : Type}.
Implicit Types (l : list (clist.Element A)) (e : clist.Element A) (a : nat).

Lemma is_at_true a e : clist.is_at a e = true ↔ clist.addr e = a.
Proof. unfold clist.is_at. apply Nat.eqb_eq. Qed.

Lemma deref_Some l a e : clist.deref l a = Some e → e ∈ l ∧ clist.addr e = a.
Proof.
  unfold clist.deref. intros Hf. apply find_some in Hf as [Hin Hat].
  split; [by apply list_elem_of_In | by apply is_at_true].
Qed.

Lemma deref_None l a e : clist.deref l a = None → e ∈ l → clist.addr e ≠ a.
Proof.
  unfold clist.deref. intros Hf Hin Heq.
  apply list_elem_of_In in Hin.
  pose proof (find_none _ _ Hf _ Hin) as Hn.
  apply is_at_true in Heq. congruence.
Qed.

Lemma deref_elem l e :
  NoDup (clist.addr <$> l) → e ∈ l → clist.deref l (clist.addr e) = Some e.
Proof.
  induction l as [|x l IH]; intros Hnd Hin; [by apply elem_of_nil in Hin|].
  rewrite fmap_cons in Hnd. apply NoDup_cons in Hnd as [Hx Hnd].
  unfold clist.deref. simpl.
  destruct (clist.is_at (clist.addr e) x) eqn:Hat.
  - apply is_at_true in Hat. apply elem_of_cons in Hin as [->|Hin]; [done|].
    exfalso. apply Hx. rewrite Hat. by apply list_elem_of_fmap_2.
  - apply elem_of_cons in Hin as [->|Hin].
    + unfold clist.is_at in Hat. by rewrite Nat.eqb_refl in Hat.
    + by apply IH.
Qed.

Lemma deref_is_Some l a : a ∈ clist.addr <$> l → is_Some (clist.deref l a).
Proof.
  intros (e & -> & Hin)%list_elem_of_fmap.
  destruct (clist.deref l (clist.addr e)) eqn:Hd; [by eexists|].
  by destruct (deref_None _ _ _ Hd Hin).
Qed.

Lemma filter_other_all l a :
  a ∉ clist.addr <$> l → List.filter (fun e' => negb (clist.is_at a e')) l = l.
Proof.
  induction l as [|x l IH]; [done|]. rewrite fmap_cons, not_elem_of_cons.
  intros [Hx Hl]. simpl. destruct (clist.is_at a x) eqn:Hat.
  - apply is_at_true in Hat. congruence.
  - simpl. by rewrite IH.
Qed.

Lemma MoveToFront_perm l a : NoDup (clist.addr <$> l) → clist.MoveToFront l a ≡ₚ l.
Proof.
  unfold clist.MoveToFront. destruct (clist.deref l a) as [e|] eqn:Hd; [|done].
  apply deref_Some in Hd as [Hin <-].
  induction l as [|x l IH]; intros Hnd; [by apply elem_of_nil in Hin|].
  rewrite fmap_cons in Hnd. apply NoDup_cons in Hnd as [Hx Hnd]. simpl.
  destruct (clist.is_at (clist.addr e) x) eqn:Hat.
  - apply is_at_true in Hat. simpl.
    assert (e = x) as ->.
    { apply elem_of_cons in Hin as [->|Hin]; [done|].
      exfalso. apply Hx. rewrite Hat. by apply list_elem_of_fmap_2. }
    by rewrite filter_other_all.
  - simpl. apply elem_of_cons in Hin as [->|Hin].
    + unfold clist.is_at in Hat. by rewrite Nat.eqb_refl in Hat.
    + rewrite Permutation_swap. by rewrite IH.
Qed.

Lemma SetValue_addr l a v : clist.addr <$> clist.SetValue l a v = clist.addr <$> l.
Proof.
  unfold clist.SetValue. rewrite <- list_fmap_compose. apply list_fmap_ext.
  intros i e _. simpl. destruct (clist.is_at a e) eqn:Hat; [|done].
  simpl. symmetry. by apply is_at_true.
Qed.

Lemma elem_of_SetValue l a v e' :
  a ∈ clist.addr <$> l →
  e' ∈ clist.SetValue l a v ↔
  e' = {| clist.addr := a; clist.Value := v |} ∨ (e' ∈ l ∧ clist.addr e' ≠ a).
Proof.
  intros Ha. unfold clist.SetValue. rewrite list_elem_of_fmap. split.
  - intros (e & -> & Hin). destruct (clist.is_at a e) eqn:Hat; [by left|].
    right. split; [done|]. intros Heq. apply is_at_true in Heq. congruence.
  - intros [->|[Hin Hne]].
    + apply list_elem_of_fmap in Ha as (e & -> & Hin). exists e. split; [|done].
      unfold clist.is_at. by rewrite Nat.eqb_refl.
    + exists e'. split; [|done]. destruct (clist.is_at a e') eqn:Hat; [|done].
      apply is_at_true in Hat. congruence.
Qed.

Lemma deref_moved l a v :
  NoDup (clist.addr <$> l) → a ∈ clist.addr <$> l →
  clist.deref (clist.MoveToFront (clist.SetValue l a v) a) a
  = Some {| clist.addr := a; clist.Value := v |}.
Proof.
  intros Hnd Ha.
  assert (Hnd' : NoDup (clist.addr <$> clist.SetValue l a v)) by (by rewrite SetValue_addr).
  apply (deref_elem _ {| clist.addr := a; clist.Value := v |}).
  - by rewrite (MoveToFront_perm _ _ Hnd').
  - rewrite (MoveToFront_perm _ _ Hnd'). apply elem_of_SetValue; [done|by left].
Qed.

Lemma Back_elem l e : clist.Back l = Some e → e ∈ l.
Proof.
  unfold clist.Back. intros Hl. apply last_Some in Hl as [l' ->].
  apply elem_of_app. right. apply list_elem_of_singleton. done.
Qed.

Lemma Back_is_Some l : l ≠ [] → is_Some (clist.Back l).
Proof. unfold clist.Back. intros Hl. by apply last_is_Some. Qed.

End clist_facts.

(** ** The index of the cache stays consistent *)

Section lru_facts.
Context {B : Type} `{!Store B}.
Implicit Types (s : lru.lru B) (k key : string) (a : nat).

Lemma cell_eta (e : clist.Element lru.lruItem) :
  e = cell (clist.addr e) (lru.K (clist.Value e)) (lru.V (clist.Value e)).
Proof. by destruct e as [a [k v]]. Qed.

Lemma linked_lookup s e :
  linked s → e ∈ lru.l s → lru.m s !! lru.K (clist.Value e) = Some (clist.addr e).
Proof.
  intros (_ & Hm & _) Hin. apply Hm. exists (lru.V (clist.Value e)).
  by rewrite <- cell_eta.
Qed.

Lemma linked_size s : linked s → base.size (lru.m s) = length (lru.l s).
Proof.
  intros (Hnd & Hm & _).
  set (f := fun e : clist.Element lru.lruItem => (lru.K (clist.Value e), clist.addr e)).
  rewrite <- (length_map_to_list (lru.m s)), <- (length_fmap f (lru.l s)).
  apply Permutation_length, NoDup_Permutation.
  - apply NoDup_map_to_list.
  - apply (NoDup_fmap_1 snd). by rewrite <- list_fmap_compose.
  - intros [k a]. rewrite elem_of_map_to_list, Hm, list_elem_of_fmap. split.
    + intros [v Hin]. by exists (cell a k v).
    + intros (e & [= -> ->] & Hin). exists (lru.V (clist.Value e)).
      by rewrite <- cell_eta.
Qed.

Lemma linked_NewLRU (n : Z) (b : option B) : linked (lru.NewLRU n b).
Proof.
  split_and!; simpl.
  - constructor.
  - intros k a. rewrite lookup_empty. split; [done|].
    intros [v Hin]. by apply elem_of_nil in Hin.
  - constructor.
Qed.

Lemma linked_perm s l' : l' ≡ₚ lru.l s → linked s → linked (lru.with_l s l').
Proof.
  intros Hp (Hnd & Hm & Hfree). split_and!; simpl.
  - by rewrite Hp.
  - intros k a. rewrite Hm. by setoid_rewrite Hp.
  - by rewrite Hp.
Qed.

Lemma linked_with_backend s (b : option B) : linked s → linked (lru.with_backend s b).
Proof. done. Qed.

Lemma linked_addr s k a : linked s → lru.m s !! k = Some a → a ∈ clist.addr <$> lru.l s.
Proof.
  intros (_ & Hm & _) Hk. apply Hm in Hk as [v Hin].
  apply list_elem_of_fmap. by exists (cell a k v).
Qed.

Lemma push_linked s key item :
  linked s → lru.m s !! key = None →
  linked {| lru.l := cell (lru.free s) key item :: lru.l s;
            lru.m := <[key := lru.free s]> (lru.m s);
            lru.size := lru.size s; lru.backend := lru.backend s;
            lru.free := S (lru.free s) |}.
Proof.
  intros (Hnd & Hm & Hfree) Hkey. split_and!; simpl.
  - apply NoDup_cons. split; [|done].
    intros (e & Heq & Hin)%list_elem_of_fmap.
    rewrite Forall_forall in Hfree. specialize (Hfree e Hin). lia.
  - intros k a. rewrite lookup_insert. case_decide as Hk.
    + subst k. split.
      * intros [= <-]. exists item. apply elem_of_cons. by left.
      * intros [v [Heq|Hin]%elem_of_cons]; [by injection Heq as -> _|].
        assert (lru.m s !! key = Some a) as Hs by (apply Hm; eauto). congruence.
    + rewrite Hm. split; intros [v Hin]; exists v.
      * apply elem_of_cons. by right.
      * apply elem_of_cons in Hin as [Heq|Hin]; [|done].
        injection Heq as _ -> _. done.
  - constructor; [simpl; lia|]. eapply Forall_impl; [done|]. simpl. lia.
Qed.

Lemma evict_linked s key item el (b : option B) :
  linked s → lru.m s !! key = None → clist.Back (lru.l s) = Some el →
  let a := clist.addr el in
  let s' := {| lru.l := clist.MoveToFront
                          (clist.SetValue (lru.l s) a {| lru.K := key; lru.V := item |}) a;
               lru.m := <[key := a]> (delete (lru.K (clist.Value el)) (lru.m s));
               lru.size := lru.size s; lru.backend := b; lru.free := lru.free s |} in
  linked s' ∧ base.size (lru.m s') = base.size (lru.m s).
Proof.
  intros Hl Hkey Hback a s'. pose proof Hl as (Hnd & Hm & Hfree).
  apply Back_elem in Hback as Hel.
  assert (a ∈ clist.addr <$> lru.l s) as Ha by (by apply list_elem_of_fmap_2).
  pose proof (linked_lookup _ _ Hl Hel) as Hk0. fold a in Hk0.
  assert (Hnd' : NoDup (clist.addr <$>
            clist.SetValue (lru.l s) a {| lru.K := key; lru.V := item |})).
  { by rewrite SetValue_addr. }
  assert (Hmem : ∀ e, e ∈ lru.l s' ↔ e = cell a key item ∨ (e ∈ lru.l s ∧ clist.addr e ≠ a)).
  { intros e. simpl. rewrite (MoveToFront_perm _ _ Hnd'). by apply elem_of_SetValue. }
  split; [split_and!|].
  - simpl. by rewrite (MoveToFront_perm _ _ Hnd'), SetValue_addr.
  - intros k a'. simpl lru.m. setoid_rewrite Hmem. rewrite lookup_insert. case_decide as Hk.
    + subst k. split.
      * intros [= <-]. exists item. by left.
      * intros [v [Heq|[Hin _]]]; [by injection Heq as ->|].
        assert (lru.m s !! key = Some a') as Hs by (apply Hm; eauto). congruence.
    + rewrite lookup_delete. case_decide as Hk0'.
      * split; [done|]. intros [v [Heq|[Hin Hne]]]; [by injection Heq as _ ->|].
        assert (lru.m s !! k = Some a') as Hs by (apply Hm; eauto).
        subst k. simpl in Hne. congruence.
      * rewrite Hm. split.
        -- intros [v Hin]. exists v. right. split; [done|]. simpl. intros Heq.
           rewrite Heq in Hin.
           assert (cell a k v = el) as Hsame; [|apply Hk0'; by rewrite <- Hsame].
           assert (clist.deref (lru.l s) a = Some el) as H1 by (by apply deref_elem).
           assert (clist.deref (lru.l s) (clist.addr (cell a k v)) = Some (cell a k v)) as H2
             by (by apply deref_elem).
           simpl in H2. congruence.
        -- intros [v [Heq|[Hin _]]]; [by injection Heq as _ ->|]. by exists v.
  - apply Forall_forall. intros e [->|[Hin _]]%Hmem.
    + simpl. rewrite Forall_forall in Hfree. apply (Hfree el Hel).
    + rewrite Forall_forall in Hfree. by apply Hfree.
  - simpl. rewrite map_size_insert_None.
    + rewrite map_size_delete_Some; [|by eexists].
      assert (base.size (lru.m s) ≠ 0); [|lia].
      intros Hz. apply map_size_empty_inv in Hz. rewrite Hz in Hk0. by rewrite lookup_empty in Hk0.
    + rewrite lookup_delete_ne; [done|]. intros <-. congruence.
Qed.

Lemma keeps_refl s : linked s → keeps s s.
Proof. by intros Hl. Qed.

Lemma keeps_with_backend s (b : option B) : linked s → keeps s (lru.with_backend s b).
Proof. by intros Hl. Qed.

Lemma keeps_trans s1 s2 s3 : keeps s1 s2 → keeps s2 s3 → keeps s1 s3.
Proof.
  intros (Hl2 & Hs2 & Hc2) (Hl3 & Hs3 & Hc3). split_and!; [done|congruence|].
  intros Hc. by apply Hc3, Hc2.
Qed.

Lemma put_keeps s key item :
  linked s → lru.m s !! key = None → after (keeps s) (lru.put s key item).
Proof.
  intros Hl Hkey. unfold lru.put.
  destruct (lru.len (lru.m s) <? lru.size s)%Z eqn:Hlt.
  - simpl. split_and!; [by apply push_linked|done|].
    simpl. unfold lru.len in *. rewrite map_size_insert_None by done.
    apply Z.ltb_lt in Hlt. lia.
  - destruct (clist.Back (lru.l s)) as [el|] eqn:Hback; [|done].
    assert (Hev : ∀ b c, after (keeps s)
      (Done {| lru.l := clist.MoveToFront
                 (clist.SetValue (lru.l s) (clist.addr el) {| lru.K := key; lru.V := item |})
                 (clist.addr el);
               lru.m := <[key := clist.addr el]> (delete (lru.K (clist.Value el)) (lru.m s));
               lru.size := lru.size s; lru.backend := b; lru.free := lru.free s |}
            (c : option signal))).
    { intros b c. destruct (evict_linked s key item el b Hl Hkey Hback) as [Hl' Hsz].
      simpl. split_and!; [done|done|]. unfold lru.len in *. simpl in *. lia. }
    destruct (lru.backend s) as [b|]; [|apply Hev].
    destruct (Set_ b _ _) as [b' c| |b']; [apply Hev|done|]. simpl. done.
Qed.

Lemma Set_hit_linked s key item a :
  linked s → lru.m s !! key = Some a →
  linked (lru.with_l s (clist.MoveToFront
            (clist.SetValue (lru.l s) a {| lru.K := key; lru.V := item |}) a)).
Proof.
  intros Hl Hkey.
  pose proof Hl as (Hnd & Hm & Hfree).
  pose proof (linked_addr _ _ _ Hl Hkey) as Ha.
  assert (Hnd' : NoDup (clist.addr <$>
            clist.SetValue (lru.l s) a {| lru.K := key; lru.V := item |})).
  { by rewrite SetValue_addr. }
  assert (Hmem : ∀ e, e ∈ clist.MoveToFront
              (clist.SetValue (lru.l s) a {| lru.K := key; lru.V := item |}) a
            ↔ e = cell a key item ∨ (e ∈ lru.l s ∧ clist.addr e ≠ a)).
  { intros e. rewrite (MoveToFront_perm _ _ Hnd'). by apply elem_of_SetValue. }
  split_and!; simpl.
  - by rewrite (MoveToFront_perm _ _ Hnd'), SetValue_addr.
  - intros k a'. setoid_rewrite Hmem. split.
    + intros Hk. destruct (decide (a' = a)) as [->|Hne].
      * exists item. left.
        assert (k = key) as ->; [|done].
        apply Hm in Hk as [v Hin]. apply Hm in Hkey as [v' Hin'].
        pose proof (deref_elem _ _ Hnd Hin) as H1.
        pose proof (deref_elem _ _ Hnd Hin') as H2. unfold cell in *. simpl in *.
        congruence.
      * apply Hm in Hk as [v Hin]. exists v. right. done.
    + intros [v [Heq|[Hin _]]]; [by injection Heq as -> ->|]. apply Hm. eauto.
  - apply Forall_forall. intros e [->|[Hin _]]%Hmem.
    + simpl. apply Hm in Hkey as [v Hin]. rewrite Forall_forall in Hfree.
      apply (Hfree _ Hin).
    + rewrite Forall_forall in Hfree. by apply Hfree.
Qed.

Lemma Set_keeps s key item : linked s → after (keeps s) (lru.Set_ s key item).
Proof.
  intros Hl. unfold lru.Set_.
  destruct (lru.m s !! key) as [a|] eqn:Hkey.
  - simpl. split_and!; [by apply Set_hit_linked|done|done].
  - destruct item as [item|]; [|by apply keeps_refl].
    pose proof (put_keeps s key (Some item) Hl Hkey) as Hput.
    by destruct (lru.put s key (Some item)) as [s' [c|]| |s'].
Qed.

Lemma Get_keeps s key item : linked s → after (keeps s) (lru.Get s key item).
Proof.
  intros Hl. unfold lru.Get.
  destruct (lru.m s !! key) as [a|] eqn:Hkey.
  - destruct (clist.deref (lru.l s) a) as [e|]; [|done]. simpl.
    split_and!; [|done|done].
    apply linked_perm; [|done]. simpl. apply MoveToFront_perm, Hl.
  - destruct (lru.backend s) as [b|]; [|by apply keeps_refl].
    destruct (Get b key item) as [b' [it|]| |b']; try done.
    pose proof (put_keeps (lru.with_backend s (Some b')) key (Some it)
                  (linked_with_backend _ _ Hl) Hkey) as Hput.
    by destruct (lru.put _ key (Some it)) as [s' [[e|]|]| |s'].
Qed.

Lemma Flush_keeps s : linked s → after (keeps s) (lru.Flush s).
Proof.
  intros Hl. unfold lru.Flush. destruct (lru.backend s) as [b|]; [|by apply keeps_refl].
  destruct (lru.write_all _ _ _) as [b1 []| |b1]; try done.
  by destruct (Flush b1) as [b2 [err|]| |b2].
Qed.

Lemma step_keeps s o : linked s → after (keeps s) (step s o).
Proof.
  intros Hl. destruct o as [key item|key item|prefix|]; simpl.
  - pose proof (Get_keeps s key item Hl). by destruct (lru.Get s key item).
  - pose proof (Set_keeps s key item Hl). by destruct (lru.Set_ s key item).
  - by apply keeps_refl.
  - pose proof (Flush_keeps s Hl). by destruct (lru.Flush s).
Qed.

Lemma run_keeps ops : ∀ s s' i, linked s → run s ops !! i = Some s' → keeps s s'.
Proof.
  induction ops as [|o ops IH]; intros s s' i Hl Hi.
  - destruct i as [|i]; simpl in Hi; [|done]. injection Hi as <-. by apply keeps_refl.
  - destruct i as [|i]; simpl in Hi; [injection Hi as <-; by apply keeps_refl|].
    pose proof (step_keeps s o Hl) as Hstep.
    destruct (step s o) as [s1 []| |s1]; simpl in Hstep.
    + eapply keeps_trans; [done|]. eapply IH; [apply Hstep|done].
    + done.
    + destruct i as [|i]; simpl in Hi; [|done]. by injection Hi as <-.
Qed.

Lemma run_NewLRU (n : Z) (b : option B) ops i s :
  run (lru.NewLRU n b) ops !! i = Some s → keeps (lru.NewLRU n b) s.
Proof. apply run_keeps, linked_NewLRU. Qed.

(** ** Capacity *)

(** C5. For a cache of capacity [N >= 1] (with any backend, in any state)
    and any finite sequence of get, set, list and flush calls from the
    empty cache, the key-to-node map holds at most [N] keys in every state
    the cache goes through. *)
Theorem lru_capacity_invariant (N : Z) (b : option B) (ops : list op) (i : nat)
    (s : lru.lru B) :
  (1 <= N)%Z →
  run (lru.NewLRU N b) ops !! i = Some s →
  (Z.of_nat (base.size (lru.m s)) <= N)%Z.
Proof.
  intros HN Hrun. apply run_NewLRU in Hrun as (_ & Hsz & Hcap).
  simpl in Hsz. rewrite Hsz in Hcap. apply Hcap.
  unfold lru.len. simpl. rewrite map_size_empty. lia.
Qed.

(** C10. In every state a cache of capacity [N >= 1] goes through, the
    eviction branch of [put] (taken when the map is not below the capacity)
    finds a tail element.  [NewLRU] accepts any capacity; with capacity 0
    the first insertion of a key, by [Set] or by a [Get] served from the
    backend, takes the eviction branch on the empty list and panics. *)
Theorem lru_eviction_tail (N : Z) (b : option B) :
  ((1 <= N)%Z →
   ∀ ops i s, run (lru.NewLRU N b) ops !! i = Some s →
     (lru.len (lru.m s) <? lru.size s)%Z = false → is_Some (clist.Back (lru.l s)))
  ∧ (N = 0%Z →
     ∀ key v tmpl,
       lru.put (lru.NewLRU N b) key (Some v) = Panics
       ∧ lru.Set_ (lru.NewLRU N b) key (Some v) = Panics
       ∧ ∀ b0 b1, b = Some b0 → Get b0 key tmpl = Done b1 (Some v) →
           lru.Get (lru.NewLRU N b) key tmpl = Panics).
Proof.
  split.
  - intros HN ops i s Hrun Hfull. apply run_NewLRU in Hrun as (Hl & Hsz & _).
    simpl in Hsz. apply Back_is_Some. intros Hnil.
    apply linked_size in Hl. rewrite Hnil in Hl. simpl in Hl.
    apply Z.ltb_ge in Hfull. unfold lru.len in Hfull. lia.
  - intros -> key v tmpl. split_and!; [done|done|].
    intros b0 b1 -> Hget. unfold lru.Get. simpl. rewrite lookup_empty, Hget. done.
Qed.

End lru_facts.

Lemma lru_capacity_witness :
  ∃ s, run (lru.NewLRU 2 no_backend) three_sets !! 3 = Some s
       ∧ (Z.of_nat (base.size (lru.m s)) <= 2)%Z.
Proof.
  eexists. split; [reflexivity|].
  apply (lru_capacity_invariant 2 no_backend three_sets 3); [lia|reflexivity].
Defined.

Lemma lru_eviction_tail_witness :
  (∃ s, run (lru.NewLRU 2 no_backend) three_sets !! 2 = Some s
        ∧ is_Some (clist.Back (lru.l s)))
  ∧ lru.Set_ (lru.NewLRU 0 no_backend) "foo" (Some (item "Hello")) = Panics
  ∧ lru.Get (lru.NewLRU 0 (Some (dir_with "foo" "Hello"))) "foo" template = Panics.
Proof.
  split_and!.
  - eexists. split; [reflexivity|].
    apply (proj1 (lru_eviction_tail 2 no_backend) ltac:(lia) three_sets 2); reflexivity.
  - apply (proj2 (lru_eviction_tail 0 no_backend) eq_refl "foo" (item "Hello") template).
  - destruct (proj2 (lru_eviction_tail 0 (Some (dir_with "foo" "Hello"))) eq_refl
                "foo" (item "Hello") template) as (_ & _ & Hget).
    apply (Hget (dir_with "foo" "Hello") (dir_with "foo" "Hello")); reflexivity.
Defined.

(** ** Behaviour of the cache *)

Section lru_claims.
Context {B : Type} `{!Store B}.
Implicit Types (s : lru.lru B) (k key : string) (a : nat).

Lemma elem_of_lru_List s k prefix :
  k ∈ lru.List s prefix ↔ is_Some (lru.m s !! k) ∧ strings.HasPrefix k prefix = true.
Proof.
  unfold lru.List. rewrite list_elem_of_filter, list_elem_of_fmap. split.
  - intros [Hp ([k' a] & -> & Hin)]. apply elem_of_map_to_list in Hin. by eauto.
  - intros [[a Ha] Hp]. split; [done|]. exists (k, a). split; [done|].
    by apply elem_of_map_to_list.
Qed.

Lemma NoDup_lru_List s prefix : NoDup (lru.List s prefix).
Proof. unfold lru.List. apply NoDup_filter, NoDup_fst_map_to_list. Qed.

(** C6. In any state a cache goes through, [Set] of a resident key with a
    nil item succeeds, leaves the key in the map at the same cell, stores a
    nil value in that cell, so that [List] with a matching prefix still
    returns the key and [Get] returns nil. *)
Theorem lru_set_absent_keeps_entry (N : Z) (b : option B) (ops : list op) (i : nat)
    s k a (prefix : string) (tmpl : Item) :
  run (lru.NewLRU N b) ops !! i = Some s →
  lru.m s !! k = Some a →
  strings.HasPrefix k prefix = true →
  ∃ s', lru.Set_ s k None = Done s' (Closed None)
        ∧ lru.m s' !! k = Some a
        ∧ clist.deref (lru.l s') a = Some (cell a k None)
        ∧ k ∈ lru.List s' prefix
        ∧ ∃ s'', lru.Get s' k tmpl = Done s'' None.
Proof.
  intros Hrun Hk Hp. apply run_NewLRU in Hrun as (Hl & _ & _).
  pose proof (Set_hit_linked s k None a Hl Hk) as Hl'.
  unfold lru.Set_. rewrite Hk. eexists. split; [reflexivity|].
  set (s' := lru.with_l s _) in *.
  assert (Hd : clist.deref (lru.l s') a = Some (cell a k None)).
  { apply deref_moved; [apply Hl|by eapply linked_addr]. }
  split_and!; [done|done| |].
  - apply elem_of_lru_List. split; [|done]. by exists a.
  - unfold lru.Get. replace (lru.m s' !! k) with (Some a) by done.
    rewrite Hd. by eexists.
Qed.

(** The round trip on the cache: in any state a cache goes through, after a
    [Set] of a non-nil item that returns, [Get] of the key returns that item. *)
Lemma lru_round_trip (N : Z) (b : option B) (ops : list op) (i : nat)
    s s' k (v tmpl : Item) (c : signal) :
  run (lru.NewLRU N b) ops !! i = Some s →
  lru.Set_ s k (Some v) = Done s' c →
  ∃ s'', lru.Get s' k tmpl = Done s'' (Some v).
Proof.
  intros Hrun Hset. apply run_NewLRU in Hrun as (Hl & _ & _).
  assert (Hhit : ∀ a, lru.m s' !! k = Some a →
            clist.deref (lru.l s') a = Some (cell a k (Some v)) →
            ∃ s'', lru.Get s' k tmpl = Done s'' (Some v)).
  { intros a Hm Hd. unfold lru.Get. rewrite Hm, Hd. by eexists. }
  unfold lru.Set_ in Hset. destruct (lru.m s !! k) as [a|] eqn:Hk.
  - injection Hset as <- <-. apply (Hhit a); [done|].
    apply deref_moved; [apply Hl|by eapply linked_addr].
  - unfold lru.put in Hset.
    destruct (lru.len (lru.m s) <? lru.size s)%Z.
    + injection Hset as <- <-. apply (Hhit (lru.free s)); simpl.
      * by rewrite lookup_insert_eq.
      * unfold clist.deref. simpl. unfold clist.is_at. simpl. by rewrite Nat.eqb_refl.
    + destruct (clist.Back (lru.l s)) as [el|] eqn:Hback; [|done].
      assert (Hev : ∀ (b' : option B), ∃ s'',
        lru.Get {| lru.l := clist.MoveToFront
                     (clist.SetValue (lru.l s) (clist.addr el)
                        {| lru.K := k; lru.V := Some v |}) (clist.addr el);
                   lru.m := <[k := clist.addr el]>
                              (delete (lru.K (clist.Value el)) (lru.m s));
                   lru.size := lru.size s; lru.backend := b';
                   lru.free := lru.free s |} k tmpl = Done s'' (Some v)).
      { intros b'. unfold lru.Get. simpl. rewrite lookup_insert_eq.
        rewrite deref_moved; [by eexists|apply Hl|].
        apply list_elem_of_fmap_2. by apply Back_elem. }
      destruct (lru.backend s) as [b0|].
      * destruct (Set_ b0 _ _) as [b1 c1| |b1]; [|done|done].
        injection Hset as <- <-. by apply (Hev (Some b1)).
      * injection Hset as <- <-. by apply (Hev None).
Qed.

(** C7. Capacity 2, no backend: after sets of "foo", "bar", "baz" with
    items [v1], [v2], [v3], [Get] of "foo" returns nil and leaves the cache
    as it is, [Get] of "bar" returns [v2] and [Get] of "baz" returns [v3],
    also one after the other. *)
Theorem lru_evicts_least_recent (v1 v2 v3 tmpl : Item) :
  ∃ s1 s2 s3 s4 s5 s6 : lru.lru B,
    lru.Set_ (lru.NewLRU 2 None) "foo" (Some v1) = Done s1 (Closed None)
    ∧ lru.Set_ s1 "bar" (Some v2) = Done s2 (Closed None)
    ∧ lru.Set_ s2 "baz" (Some v3) = Done s3 (Closed None)
    ∧ lru.Get s3 "foo" tmpl = Done s3 None
    ∧ lru.Get s3 "bar" tmpl = Done s4 (Some v2)
    ∧ lru.Get s3 "baz" tmpl = Done s5 (Some v3)
    ∧ lru.Get s4 "baz" tmpl = Done s6 (Some v3).
Proof. do 6 eexists. split_and!; reflexivity. Qed.

(** C3 (what the code does). [Flush] of a cache without a backend returns a
    channel that is never closed and never sent on: a receiver waits for
    ever. *)
Theorem lru_flush_without_backend s :
  lru.Flush (lru.with_backend s None) = Done (lru.with_backend s None) NeverClosed
  ∧ ∀ N, lru.Flush (lru.NewLRU N (@None B)) = Done (lru.NewLRU N None) NeverClosed.
Proof. done. Qed.

Lemma Flush_Done_inv s s' (b : B) (c : signal) :
  lru.backend s = Some b →
  lru.Flush s = Done s' c →
  ∃ b1 b2, lru.write_all (lru.l s) b (snd <$> map_to_list (lru.m s)) = Done b1 tt
           ∧ Flush b1 = Done b2 c
           ∧ s' = lru.with_backend s (Some b2).
Proof.
  unfold lru.Flush. intros -> Hf.
  destruct (lru.write_all _ _ _) as [b1 []| |b1] eqn:Hw; try done.
  destruct (Flush b1) as [b2 [err|]| |b2] eqn:Hb; try done.
  injection Hf as <- <-. by exists b1, b2.
Qed.

(** C9. When [Flush] of a cache with a backend completes, the list, the
    map and the capacity of the cache are what they were: the backend was
    set once for every cell of the map and then flushed, and nothing else
    changed. *)
Theorem lru_flush_frame s s' (b : B) (c : signal) :
  lru.backend s = Some b →
  lru.Flush s = Done s' c →
  lru.l s' = lru.l s ∧ lru.m s' = lru.m s ∧ lru.size s' = lru.size s
  ∧ ∃ b1 b2, lru.write_all (lru.l s) b (snd <$> map_to_list (lru.m s)) = Done b1 tt
             ∧ Flush b1 = Done b2 c
             ∧ s' = lru.with_backend s (Some b2).
Proof.
  intros Hb Hf. destruct (Flush_Done_inv s s' b c Hb Hf) as (b1 & b2 & Hw & Hfl & ->).
  split_and!; try done. by exists b1, b2.
Qed.

(** C2 (amended). When an insertion evicts the tail of a full cache and the
    backend's [Set] of the evicted pair delivers the error [err] (or none):
    [Set] on the cache hands that very signal to its caller, so a write-back
    error is delivered to it; [Get] waits for the signal and returns the
    item it read from the backend, whatever the signal carries.  A [Flush]
    of a cache delivers what the [Flush] of its backend delivers after the
    cached pairs were set on it, and nothing of earlier write-backs. *)
Theorem lru_writeback_signal s (b b' : B) key (v : Item) el (err : option os.error) :
  lru.m s !! key = None →
  (lru.len (lru.m s) <? lru.size s)%Z = false →
  clist.Back (lru.l s) = Some el →
  Set_ b (lru.K (clist.Value el)) (lru.V (clist.Value el)) = Done b' (Closed err) →
  (lru.backend s = Some b →
   ∃ s', lru.Set_ s key (Some v) = Done s' (Closed err) ∧ lru.backend s' = Some b')
  ∧ (∀ b0 tmpl, lru.backend s = Some b0 → Get b0 key tmpl = Done b (Some v) →
     ∃ s', lru.Get s key tmpl = Done s' (Some v) ∧ lru.backend s' = Some b')
  ∧ (∀ s1 s2 (b1 : B) c, lru.backend s1 = Some b1 → lru.Flush s1 = Done s2 c →
     ∃ b2 b3, lru.write_all (lru.l s1) b1 (snd <$> map_to_list (lru.m s1)) = Done b2 tt
              ∧ Flush b2 = Done b3 c).
Proof.
  intros Hkey Hfull Hback Hset. split_and!.
  - intros Hb. unfold lru.Set_, lru.put. rewrite Hkey, Hfull, Hback, Hb, Hset.
    eexists. split; reflexivity.
  - intros b0 tmpl Hb Hget. unfold lru.Get, lru.put. rewrite Hkey, Hb, Hget. simpl.
    rewrite Hfull, Hback, Hset. eexists. split; reflexivity.
  - intros s1 s2 b1 c Hb Hf.
    destruct (Flush_Done_inv s1 s2 b1 c Hb Hf) as (b2 & b3 & Hw & Hfl & _). eauto.
Qed.

End lru_claims.

Lemma lru_set_absent_witness :
  ∃ s', lru.Set_ backed_cache "bar" None = Done s' (Closed None)
        ∧ "bar" ∈ lru.List s' "ba"
        ∧ ∃ s'', lru.Get s' "bar" template = Done s'' None.
Proof.
  destruct (lru_set_absent_keeps_entry 2 (Some test_dir) three_sets 3 backed_cache
              "bar" 1 "ba" template) as (s' & Hset & _ & _ & Hlist & Hget);
    [vm_compute; reflexivity|vm_compute; reflexivity|vm_compute; reflexivity|].
  exists s'. by split_and!.
Defined.

Lemma lru_flush_frame_witness :
  lru.Flush backed_cache = Done flushed_cache (Closed None)
  ∧ lru.l flushed_cache = lru.l backed_cache
  ∧ lru.m flushed_cache = lru.m backed_cache.
Proof.
  assert (lru.backend backed_cache = Some (dir_with "foo" "Hello")) as Hb
    by (vm_compute; reflexivity).
  assert (lru.Flush backed_cache = Done flushed_cache (Closed None)) as Hf
    by (vm_compute; reflexivity).
  destruct (lru_flush_frame backed_cache flushed_cache (dir_with "foo" "Hello")
              (Closed None) Hb Hf) as (Hl & Hm & _).
  by split_and!.
Defined.

(** C2 (as stated, refuted). The cache of capacity 1 holds the key [""];
    setting "bar" evicts it, the write-back fails because the root of the
    backend is a directory, and that error arrives on the channel that
    [Set] returned to its caller.  A flush of the cache afterwards delivers
    no error. *)
Lemma lru_set_delivers_writeback_error :
  clist.Back (lru.l root_cache) = Some (cell 0 "" (Some (item "x")))
  ∧ lru.backend root_cache = Some (dir_with "foo" "Hello")
  ∧ Set_ (dir_with "foo" "Hello") "" (Some (item "x"))
    = Done (dir_with "foo" "Hello") (Closed (Some os.EISDIR))
  ∧ lru.Set_ root_cache "bar" (Some (item "y"))
    = Done evicting_cache (Closed (Some os.EISDIR))
  ∧ ∃ s', lru.Flush evicting_cache = Done s' (Closed None).
Proof. split_and!; [vm_compute; reflexivity..|]. eexists. vm_compute. reflexivity. Qed.

Lemma lru_writeback_signal_witness :
  ∃ s', lru.Set_ root_cache "bar" (Some (item "y")) = Done s' (Closed (Some os.EISDIR))
        ∧ lru.backend s' = Some (dir_with "foo" "Hello").
Proof.
  refine (proj1 (lru_writeback_signal root_cache (dir_with "foo" "Hello")
                  (dir_with "foo" "Hello") "bar" (item "y")
                  (cell 0 "" (Some (item "x"))) (Some os.EISDIR) _ _ _ _) _);
    vm_compute; reflexivity.
Defined.

(** ** The directory store *)

Section dirStore_facts.
Implicit Types (fs : os.FS) (p q : string) (store : dirStore.dirStore).

Lemma Stat_None fs p : os.Stat fs p = None → os.always_dir p = false ∧ fs !! p = None.
Proof. unfold os.Stat. by destruct (os.always_dir p). Qed.

Lemma Stat_File fs p data :
  os.Stat fs p = Some (os.File data) → os.always_dir p = false ∧ fs !! p = Some (os.File data).
Proof. unfold os.Stat. by destruct (os.always_dir p). Qed.

Lemma Mkdir_keeps fs p q n : fs !! q = Some n → (os.Mkdir fs p).1 !! q = Some n.
Proof.
  intros Hq. unfold os.Mkdir. destruct (os.Stat fs p) eqn:Hs; [done|].
  apply Stat_None in Hs as [_ Hp].
  destruct (os.parent_check fs p); [done|]. simpl.
  rewrite lookup_insert_ne; [done|]. intros ->. congruence.
Qed.

Lemma MkdirAll_rec_keeps n : ∀ fs p q x,
  fs !! q = Some x → (os.MkdirAll_rec n fs p).1 !! q = Some x.
Proof.
  induction n as [|n IH]; intros fs p q x Hq; simpl.
  - destruct (os.Stat fs p) as [[]|]; [done|done|]. by apply Mkdir_keeps.
  - destruct (os.Stat fs p) as [[]|]; [done|done|].
    destruct (1 <? filepath.after_last_slash p)%nat; [|by apply Mkdir_keeps].
    pose proof (IH fs (String.substring 0 (filepath.after_last_slash p - 1) p) q x Hq) as H1.
    destruct (os.MkdirAll_rec n fs _) as [fs' [e|]]; [done|]. by apply Mkdir_keeps.
Qed.

(** What [Set] does to a key whose file exists: the new bytes are written
    over the beginning of the old contents, and [Get] reads the result. *)
Lemma dirStore_Set_existing store k (v tmpl : Item) old :
  os.Stat (dirStore.fs store) (mkpath (dirStore.path store) k) = Some (os.File old) →
  ∃ store', Set_ store k (Some v) = Done store' (Closed None)
            ∧ Get store' k tmpl
              = Done store' (Some {| Value := os.overwrite (Value v) old |}).
Proof.
  intros [Had Hold]%Stat_File. simpl. unfold dirStore.Set_.
  set (s := mkpath (dirStore.path store) k) in *.
  set (fs1 := (os.MkdirAll (dirStore.fs store) (filepath.Dir s)).1).
  assert (fs1 !! s = Some (os.File old)) as H1 by (by apply MkdirAll_rec_keeps).
  unfold os.OpenFile_WRONLY_CREATE, os.Stat. rewrite Had, H1.
  eexists. split; [reflexivity|].
  unfold dirStore.Get, os.Open, os.Stat, os.Write. simpl. fold s.
  rewrite Had, H1, lookup_insert_eq. done.
Qed.

(** The round trip holds for an existing file that is not longer than the
    new value. *)
Lemma dirStore_round_trip_existing store k (v tmpl : Item) old :
  os.Stat (dirStore.fs store) (mkpath (dirStore.path store) k) = Some (os.File old) →
  (List.length old <= List.length (Value v))%nat →
  ∃ store', Set_ store k (Some v) = Done store' (Closed None)
            ∧ Get store' k tmpl = Done store' (Some v).
Proof.
  intros Hold Hlen.
  destruct (dirStore_Set_existing store k v tmpl old Hold) as (store' & Hset & Hget).
  exists store'. split; [done|]. rewrite Hget. unfold os.overwrite.
  rewrite drop_ge by done. rewrite app_nil_r. by destruct v.
Qed.

(** C1 (what the code does). On the directory store, [Set] of "Hi" on a key
    that holds "Hello" completes without error, and [Get] then returns
    "Hillo": the file is opened without truncation, so the end of the longer
    old value stays. *)
Theorem dirStore_overwrite_keeps_tail :
  ∃ s1 s2 : dirStore.dirStore,
    Set_ test_dir "foo" (Some (item "Hello")) = Done s1 (Closed None)
    ∧ Get s1 "foo" template = Done s1 (Some (item "Hello"))
    ∧ Set_ s1 "foo" (Some (item "Hi")) = Done s2 (Closed None)
    ∧ Get s2 "foo" template = Done s2 (Some (item "Hillo")).
Proof. do 2 eexists. split_and!; vm_compute; reflexivity. Qed.

(** C8. On the directory store, when nothing exists at the path of key [k],
    [Set] of [k] with a nil item delivers an error on the returned channel,
    and [Get] of [k] afterwards returns nil. *)
Theorem dirStore_delete_missing store k (tmpl : Item) :
  os.Stat (dirStore.fs store) (mkpath (dirStore.path store) k) = None →
  ∃ err store', Set_ store k None = Done store' (Closed (Some err))
                ∧ Get store' k tmpl = Done store' None.
Proof.
  intros Hs. pose proof Hs as [Had Hk]%Stat_None.
  exists os.ENOENT, store. simpl.
  unfold dirStore.Set_, os.Remove, dirStore.Get, os.Open. by rewrite Had, Hk, Hs.
Qed.

(** C4 (what the code does). On the directory store, after [Set] of the key
    "a/b", which [Get] finds, [List] of the empty prefix and of the prefix
    "a" return no key: the pattern of [List] matches the entries of one
    directory only.  The prefix "a/" finds the key. *)
Theorem dirStore_List_misses_nested_key :
  ∃ s1 : dirStore.dirStore,
    Set_ test_dir "a/b" (Some (item "x")) = Done s1 (Closed None)
    ∧ Get s1 "a/b" template = Done s1 (Some (item "x"))
    ∧ List s1 "" = []
    ∧ List s1 "a" = []
    ∧ List s1 "a/" = ["a/b"].
Proof. eexists. split_and!; vm_compute; reflexivity. Qed.

(** The three flat keys of the specification's example are listed as it says. *)
Lemma dirStore_List_three_files :
  List three_files "" = ["bar"; "baz"; "foo"]
  ∧ List three_files "ba" = ["bar"; "baz"]
  ∧ List three_files "foo" = ["foo"].
Proof. split_and!; vm_compute; reflexivity. Qed.

End dirStore_facts.

Lemma lru_List_three_keys :
  ∃ s, run (lru.NewLRU 3 no_backend) three_sets !! 3 = Some s
       ∧ List s "ba" ≡ₚ ["bar"; "baz"] ∧ List s "" ≡ₚ ["foo"; "bar"; "baz"].
Proof.
  eexists. split; [vm_compute; reflexivity|]. split.
  - vm_compute. apply perm_swap.
  - vm_compute. apply perm_skip, perm_swap.
Qed.

Lemma dirStore_delete_missing_witness :
  ∃ err store', Set_ test_dir "missing key" None = Done store' (Closed (Some err))
                ∧ Get store' "missing key" template = Done store' None.
Proof.
  apply (dirStore_delete_missing test_dir "missing key" template).
  vm_compute. reflexivity.
Defined.
